(** * envconsul: the command-line entry point (cli.go)

    A shallow embedding of [CLI.Run], [CLI.stop], [CLI.parseFlags] and
    [CLI.handleError], together with the exit-code constant block, and a
    model of the prefix merger that the usage text describes. *)

From Stdlib Require Import ZArith String Ascii DecimalString.
From stdpp Require Import base option list gmap strings.

Local Open Scope Z_scope.
Local Open Scope string_scope.

(** ** Exit codes

    The source declares
<<
    const (
        ExitCodeOK int = 0
        // Errors start at 10
        ExitCodeError = 10 + iota
        ExitCodeInterrupt
        ...
    )
>>
    In Go, [iota] is the index of the ConstSpec inside its const block,
    counted from zero, and a ConstSpec without an expression repeats the
    previous expression.  [const_values] evaluates such a block. *)

Module Const.

(** A ConstSpec either carries an expression over [iota] or is empty. *)
Definition spec := option (Z → Z).

Fixpoint const_values (prev : Z → Z) (iota : Z) (specs : list spec) : list Z :=
  match specs with
  | [] => []
  | s :: rest =>
      let e := default prev s in
      e iota :: const_values e (iota + 1) rest
  end.

(** The const block of cli.go, one entry per ConstSpec, in source order. *)
Definition block : list spec :=
  [ Some (λ _, 0)              (* ExitCodeOK int = 0         *)
  ; Some (λ iota, 10 + iota)   (* ExitCodeError = 10 + iota  *)
  ; None                       (* ExitCodeInterrupt          *)
  ; None                       (* ExitCodeLoggingError       *)
  ; None                       (* ExitCodeParseFlagsError    *)
  ; None                       (* ExitCodeParseConfigError   *)
  ; None                       (* ExitCodeRunnerError        *)
  ; None                       (* ExitCodeConsulAPIError     *)
  ; None                       (* ExitCodeWatcherError       *)
  ].

Definition values : list Z := const_values (λ _, 0) 0 block.

Definition nth_value (i : nat) : Z := default 0 (values !! i).

End Const.

Definition ExitCodeOK : Z := Const.nth_value 0.
Definition ExitCodeError : Z := Const.nth_value 1.
Definition ExitCodeInterrupt : Z := Const.nth_value 2.
Definition ExitCodeLoggingError : Z := Const.nth_value 3.
Definition ExitCodeParseFlagsError : Z := Const.nth_value 4.
Definition ExitCodeParseConfigError : Z := Const.nth_value 5.
Definition ExitCodeRunnerError : Z := Const.nth_value 6.
Definition ExitCodeConsulAPIError : Z := Const.nth_value 7.
Definition ExitCodeWatcherError : Z := Const.nth_value 8.

(** The internal fault codes, i.e. every constant of the block but
    [ExitCodeOK]. *)
Definition internal_codes : list Z :=
  [ ExitCodeError; ExitCodeInterrupt; ExitCodeLoggingError
  ; ExitCodeParseFlagsError; ExitCodeParseConfigError; ExitCodeRunnerError
  ; ExitCodeConsulAPIError; ExitCodeWatcherError ].

(** ** Data *)

(** An [error] value is identified with the text of its [Error()] method. *)
Definition error := string.

(** [os.Signal] values are the numbers of [syscall.Signal]. *)
Definition Signal := Z.
Definition SIGINT : Signal := 2.
Definition SIGQUIT : Signal := 3.
Definition SIGTERM : Signal := 15.

(** [dep.StoreKeyPrefix]: a watched path of the store. *)
Record StoreKeyPrefix := { PrefixPath : string }.

(** The scalar fields of [Config] that cli.go reads or registers as flags
    (durations in nanoseconds); [Auth] and [Wait] point to structures
    declared elsewhere and are not read by cli.go. *)
Record Config := {
  Consul : string;
  Token : string;
  SSL_Enabled : bool;
  SSL_Verify : bool;
  MaxStale : Z;
  Retry : Z;
  Syslog_Enabled : bool;
  Syslog_Facility : string;
  Prefixes : list StoreKeyPrefix;
  Sanitize : bool;
  Upcase : bool;
  Path : string;
  LogLevel : string
}.

Definition with_Prefixes (c : Config) (ps : list StoreKeyPrefix) : Config :=
  {| Consul := Consul c; Token := Token c;
     SSL_Enabled := SSL_Enabled c; SSL_Verify := SSL_Verify c;
     MaxStale := MaxStale c; Retry := Retry c;
     Syslog_Enabled := Syslog_Enabled c; Syslog_Facility := Syslog_Facility c;
     Prefixes := ps;
     Sanitize := Sanitize c; Upcase := Upcase c;
     Path := Path c; LogLevel := LogLevel c |}.

(** [logging.Config], as filled in by [Run]; the writer is always
    [cli.errStream]. *)
Record LoggingConfig := {
  L_Name : string;
  L_Level : string;
  L_Syslog : bool;
  L_SyslogFacility : string
}.

(** What [parseFlags] hands back on success:
    config, positional arguments, once, version. *)
Definition parsed : Type := Config * list string * bool * bool.

(** The collaborators of cli.go that live outside it: the package
    constants [Name] and [Version], [DefaultConfig], the [flag] library,
    [logging.Setup], [dep.ParseStoreKeyPrefix] and [NewRunner]. *)
Record Externals := {
  Name : string;
  Version : string;
  DefaultConfig : Config;
  (** [flags.Parse(args)] over the variables registered by [parseFlags],
      followed by [flags.Args()]. *)
  flags_Parse : Config → list string → error + parsed;
  logging_Setup : LoggingConfig → option error;
  ParseStoreKeyPrefix : string → error + StoreKeyPrefix;
  (** [NewRunner] either fails or yields the runner [Run] then drives. *)
  NewRunner : Config → list string → bool → option error
}.

(** ** Effects

    Everything [Run] does to the outside, in program order. *)
Inductive effect :=
| LogPrintf (line : string)                 (* log.Printf                      *)
| ErrStream (text : string)                 (* fmt.Fprintf(cli.errStream, ...) *)
| CallLoggingSetup (c : LoggingConfig)      (* logging.Setup                   *)
| CallParseStoreKeyPrefix (raw : string)    (* dep.ParseStoreKeyPrefix         *)
| CallNewRunner (config : Config) (command : list string) (once : bool)
| GoRunnerStart                             (* go runner.Start()               *)
| SignalNotify                              (* signal.Notify(signalCh, ...)    *)
| RunnerSignal (s : Signal)                 (* runner.Signal(s)                *)
| RunnerStop.                               (* runner.Stop()                   *)

(** How an invocation of [Run] ends: it returns a status, it is still
    blocked in [select] when the supplied events are used up, or it
    panics (slicing [args[1:]] of an empty slice). *)
Inductive outcome :=
| Exit (status : Z)
| Waiting
| Panic.

Definition run := (list effect * outcome)%type.

Definition emit (e : effect) (k : run) : run := (e :: k.1, k.2).
Definition ret (status : Z) : run := ([], Exit status).

Notation "'do' e ; k" := (emit e k)
  (at level 10, e at level 99, k at level 200).

(** What the [select] of the event loop receives. *)
Inductive event :=
| EvErr (err : error)       (* <-runner.ErrCh  *)
| EvDone                    (* <-runner.DoneCh *)
| EvExit (code : Z)         (* <-runner.ExitCh *)
| EvSignal (s : Signal)     (* <-signalCh      *)
| EvStopCh.                 (* <-cli.stopCh    *)

Definition newline : string := String (ascii_of_nat 10) EmptyString.

(** [%d] of a Go int. *)
Definition fmt_d (z : Z) : string := NilZero.string_of_int (Z.to_int z).

(** ** The CLI *)

(** [handleError] logs the error and returns the given status. *)
Definition handleError (err : error) (status : Z) : run :=
  do LogPrintf ("[ERR] " ++ err);
  ret status.

(** [parseFlags]: the flag set is filled from [DefaultConfig]; a parser
    error is returned as it is. *)
Definition parseFlags (X : Externals) (args : list string) : error + parsed :=
  match flags_Parse X (DefaultConfig X) args with
  | inl err => inl err
  | inr (config, rest, once, version) => inr (config, rest, once, version)
  end.

Definition is_interrupt (s : Signal) : bool :=
  bool_decide (s = SIGINT) || bool_decide (s = SIGTERM) || bool_decide (s = SIGQUIT).

(** The [for { select { ... } }] loop of [Run]. *)
Fixpoint eventLoop (events : list event) : run :=
  match events with
  | [] => ([], Waiting)
  | EvErr err :: _ => handleError err ExitCodeRunnerError
  | EvDone :: _ => ret ExitCodeOK
  | EvExit code :: _ =>
      do LogPrintf "[INFO] (cli) subprocess exited";
      do RunnerStop;
      if bool_decide (code = ExitCodeOK) then ret ExitCodeOK
      else handleError ("unexpected exit from subprocess (" ++ fmt_d code ++ ")") code
  | EvSignal s :: rest =>
      do RunnerSignal s;
      if is_interrupt s then
        do ErrStream ("Received interrupt, cleaning up..." ++ newline);
        do RunnerStop;
        ret ExitCodeInterrupt
      else eventLoop rest
  | EvStopCh :: _ => ret ExitCodeOK
  end.

(** From [NewRunner] on. *)
Definition startRunner (X : Externals) (config : Config) (command : list string)
    (once : bool) (events : list event) : run :=
  do CallNewRunner config command once;
  match NewRunner X config command once with
  | Some err => handleError err ExitCodeRunnerError
  | None =>
      do GoRunnerStart;
      do SignalNotify;
      eventLoop events
  end.

(** The [logging.Config] that [Run] builds. *)
Definition loggingConfig (X : Externals) (config : Config) : LoggingConfig :=
  {| L_Name := Name X; L_Level := LogLevel config;
     L_Syslog := Syslog_Enabled config;
     L_SyslogFacility := Syslog_Facility config |}.

(** [Run], after [parseFlags] succeeded. *)
Definition runParsed (X : Externals) (p : parsed) (events : list event) : run :=
  let '(config, parsedArgs, once, version) := p in
  let lc := loggingConfig X config in
  do CallLoggingSetup lc;
  match logging_Setup X lc with
  | Some err => handleError err ExitCodeLoggingError
  | None =>
      if version then
        do LogPrintf "[DEBUG] (cli) version flag was given, exiting now";
        do ErrStream (Name X ++ " v" ++ Version X ++ newline);
        ret ExitCodeOK
      else if bool_decide (0 < length (Prefixes config))%nat then
        startRunner X config parsedArgs once events
      else if bool_decide (length parsedArgs < 2)%nat then
        handleError "cli: missing required arguments prefix and command"
                    ExitCodeParseFlagsError
      else
        do LogPrintf ("[WARN] specifying the consul key on the command line is "
                      ++ "deprecated, please use -prefix instead");
        match parsedArgs !! 0%nat with
        | None => ([], Panic)                       (* index out of range *)
        | Some prefixRaw =>
            let command := drop 1 parsedArgs in
            do CallParseStoreKeyPrefix prefixRaw;
            match ParseStoreKeyPrefix X prefixRaw with
            | inl err => handleError err ExitCodeError
            | inr prefix =>
                startRunner X (with_Prefixes config (Prefixes config ++ [prefix]))
                            command once events
            end
        end
  end.

(** [CLI.Run]. *)
Definition Run (X : Externals) (args : list string) (events : list event) : run :=
  match args with
  | [] => ([], Panic)
  | _ :: args1 =>
      match parseFlags X args1 with
      | inl err => handleError err ExitCodeParseFlagsError
      | inr p => runParsed X p events
      end
  end.

(** ** [CLI.stop]

    The CLI value: its mutex, the stop channel and the stopped flag (the
    two writers appear as [ErrStream] effects of [Run]). *)
Inductive chan := ChanOpen | ChanClosed.

Record CLI := {
  locked : bool;       (* sync.Mutex *)
  stopCh : chan;
  stopped : bool
}.

Definition NewCLI : CLI :=
  {| locked := false; stopCh := ChanOpen; stopped := false |}.

(** The primitive operations [stop] performs, in program order. *)
Inductive cli_op := OpLock | OpClose | OpUnlock.

(** A call of [stop] returns, blocks for ever on a held mutex, or panics
    (closing a closed channel). *)
Inductive stop_result :=
| Returned (cli : CLI)
| Blocked
| ClosePanic.

Definition stop (cli : CLI) : list cli_op * stop_result :=
  if locked cli then ([], Blocked)
  else if stopped cli then
    ([OpLock; OpUnlock], Returned cli)
  else
    match stopCh cli with
    | ChanClosed => ([OpLock; OpClose; OpUnlock], ClosePanic)
    | ChanOpen =>
        ([OpLock; OpClose; OpUnlock],
         Returned {| locked := false; stopCh := ChanClosed; stopped := true |})
    end.

(** [n] calls of [stop], one after the other. *)
Fixpoint stop_n (n : nat) (cli : CLI) : list cli_op * stop_result :=
  match n with
  | O => ([], Returned cli)
  | S n' =>
      match stop cli with
      | (ops, Returned cli') =>
          let r := stop_n n' cli' in ((ops ++ r.1)%list, r.2)
      | r => r
      end
  end.

Definition is_close (o : cli_op) : bool :=
  match o with OpClose => true | _ => false end.

Definition closes (ops : list cli_op) : nat := length (List.filter is_close ops).

(** The state a new CLI is in after [stop]. *)
Definition stoppedCLI : CLI :=
  {| locked := false; stopCh := ChanClosed; stopped := true |}.

(** ** A sample set of collaborators, to run the model on. *)
Module Sample.

Definition config0 : Config :=
  {| Consul := "127.0.0.1:8500"; Token := "";
     SSL_Enabled := false; SSL_Verify := true;
     MaxStale := 0; Retry := 5000000000;
     Syslog_Enabled := false; Syslog_Facility := "LOCAL0";
     Prefixes := [];
     Sanitize := false; Upcase := false;
     Path := ""; LogLevel := "WARN" |}.

Definition with_LogLevel (c : Config) (l : string) : Config :=
  {| Consul := Consul c; Token := Token c;
     SSL_Enabled := SSL_Enabled c; SSL_Verify := SSL_Verify c;
     MaxStale := MaxStale c; Retry := Retry c;
     Syslog_Enabled := Syslog_Enabled c; Syslog_Facility := Syslog_Facility c;
     Prefixes := Prefixes c;
     Sanitize := Sanitize c; Upcase := Upcase c;
     Path := Path c; LogLevel := l |}.

(** A small flag parser: [-version], [-once], [-prefix p],
    [-log-level l]; any other dash argument is an error; the first
    argument without a dash starts the positional arguments. *)
Fixpoint parse (config : Config) (once version : bool) (args : list string)
    : error + parsed :=
  match args with
  | [] => inr (config, [], once, version)
  | a :: rest =>
      if String.eqb a "-version" then parse config once true rest
      else if String.eqb a "-once" then parse config true version rest
      else if String.eqb a "-prefix" then
        match rest with
        | p :: rest' =>
            parse (with_Prefixes config (Prefixes config ++ [{| PrefixPath := p |}]))
                  once version rest'
        | [] => inl "flag needs an argument: -prefix"
        end
      else if String.eqb a "-log-level" then
        match rest with
        | l :: rest' => parse (with_LogLevel config l) once version rest'
        | [] => inl "flag needs an argument: -log-level"
        end
      else
        match a with
        | String "-" _ => inl ("flag provided but not defined: " ++ a)
        | _ => inr (config, args, once, version)
        end
  end.

Definition setup (c : LoggingConfig) : option error :=
  if bool_decide (L_Level c ∈ ["DEBUG"; "INFO"; "WARN"; "ERR"]) then None
  else Some ("invalid log level " ++ L_Level c).

Definition parse_prefix (raw : string) : error + StoreKeyPrefix :=
  match raw with
  | String "@" _ => inl "invalid key prefix dependency format"
  | _ => inr {| PrefixPath := raw |}
  end.

Definition new_runner (config : Config) (command : list string) (once : bool)
    : option error :=
  match command with
  | "" :: _ => Some "runner: empty command"
  | _ => None
  end.

Definition world : Externals :=
  {| Name := "envconsul"; Version := "0.5.0";
     DefaultConfig := config0;
     flags_Parse := λ c args, parse c false false args;
     logging_Setup := setup;
     ParseStoreKeyPrefix := parse_prefix;
     NewRunner := new_runner |}.

End Sample.

(** ** The key transform and the merger

    runner.go, which builds the environment of the child, is not among the
    sources; cli.go only documents it in its usage text: ``multiple
    prefixes are merged from left to right, with the right-most result
    taking precedence''. *)
Module Merger.

(** Modelled from the spec: the Sanitizer/KeyTransform of runner.go
    (missing from the sources).  With [sanitize], every character outside
    [A-Za-z0-9_] becomes an underscore; with [upcase], the result is
    then uppercased. *)
Definition valid_char (c : ascii) : bool :=
  let n := nat_of_ascii c in
  ((65 <=? n) && (n <=? 90) || (97 <=? n) && (n <=? 122)
   || (48 <=? n) && (n <=? 57) || (n =? 95))%nat.

Definition sanitize_char (c : ascii) : ascii :=
  if valid_char c then c else "_"%char.

Definition upcase_char (c : ascii) : ascii :=
  let n := nat_of_ascii c in
  if ((97 <=? n) && (n <=? 122))%nat then ascii_of_nat (n - 32) else c.

Fixpoint map_string (f : ascii → ascii) (s : string) : string :=
  match s with
  | EmptyString => EmptyString
  | String c s' => String (f c) (map_string f s')
  end.

Definition transform (path : string) (sanitize upcase : bool) : string :=
  let s := if sanitize then map_string sanitize_char path else path in
  if upcase then map_string upcase_char s else s.

(** A snapshot of one prefix: its key/value pairs, in the order in which
    they are inserted. *)
Definition KVSnapshot : Type := list (string * string).

(** Modelled from the spec: the Merger of runner.go (missing from the
    sources) holds the latest snapshot of every prefix, replaced
    wholesale on each successful poll; a prefix without a snapshot
    counts as empty. *)
Definition update (p : StoreKeyPrefix) (snap : KVSnapshot)
    (st : gmap string KVSnapshot) : gmap string KVSnapshot :=
  <[PrefixPath p := snap]> st.

Definition latest (st : gmap string KVSnapshot) (p : StoreKeyPrefix) : KVSnapshot :=
  default [] (st !! PrefixPath p).

(** Modelled from the spec: the merge of runner.go (missing from the
    sources) iterates the prefixes in configured order and inserts each
    key, after the transform [tr], into the result; a later insertion
    overwrites an earlier one. *)
Definition insert_pairs (tr : string → string) (env : gmap string string)
    (snap : KVSnapshot) : gmap string string :=
  foldl (λ env kv, <[tr kv.1 := kv.2]> env) env snap.

Definition merge_from (tr : string → string) (env : gmap string string)
    (prefixes : list StoreKeyPrefix) (st : gmap string KVSnapshot)
    : gmap string string :=
  foldl (λ env p, insert_pairs tr env (latest st p)) env prefixes.

Definition merge (tr : string → string) (prefixes : list StoreKeyPrefix)
    (st : gmap string KVSnapshot) : gmap string string :=
  merge_from tr ∅ prefixes st.

(** The merge under a configuration's [Sanitize] and [Upcase]. *)
Definition environment (config : Config) (st : gmap string KVSnapshot)
    : gmap string string :=
  merge (λ k, transform k (Sanitize config) (Upcase config)) (Prefixes config) st.

(** The value that one snapshot gives to a variable name: that of the
    last of its pairs whose transformed key is the name. *)
Fixpoint snapshot_value (tr : string → string) (name : string)
    (snap : KVSnapshot) : option string :=
  match snap with
  | [] => None
  | kv :: rest =>
      match snapshot_value tr name rest with
      | Some w => Some w
      | None => if decide (tr kv.1 = name) then Some kv.2 else None
      end
  end.

(** The value of the right-most prefix whose snapshot gives one. *)
Fixpoint rightmost_value (tr : string → string) (name : string)
    (prefixes : list StoreKeyPrefix) (st : gmap string KVSnapshot)
    : option string :=
  match prefixes with
  | [] => None
  | p :: ps =>
      match rightmost_value tr name ps st with
      | Some v => Some v
      | None => snapshot_value tr name (latest st p)
      end
  end.

End Merger.

(** The log lines and messages of [Run]. *)
Definition msg_subprocess_exited : string := "[INFO] (cli) subprocess exited".
Definition msg_version : string :=
  "[DEBUG] (cli) version flag was given, exiting now".
Definition msg_deprecated : string :=
  "[WARN] specifying the consul key on the command line is "
  ++ "deprecated, please use -prefix instead".
Definition msg_missing : string :=
  "cli: missing required arguments prefix and command".
Definition msg_interrupt : string := "Received interrupt, cleaning up..." ++ newline.
Definition msg_unexpected (code : Z) : string :=
  "unexpected exit from subprocess (" ++ fmt_d code ++ ")".

(** ** Vocabulary for traces and events *)

#[global] Instance outcome_eq_dec : EqDecision outcome.
Proof. solve_decision. Defined.

(** The calls on the runner object, once [NewRunner] has returned it. *)
Definition on_runner (e : effect) : bool :=
  match e with
  | GoRunnerStart | RunnerSignal _ | RunnerStop => true
  | _ => false
  end.

Definition is_start (e : effect) : bool :=
  match e with GoRunnerStart => true | _ => false end.

Definition is_stop (e : effect) : bool :=
  match e with RunnerStop => true | _ => false end.

(** The lines that [handleError] logs. *)
Definition is_err_log (e : effect) : bool :=
  match e with
  | LogPrintf line => String.prefix "[ERR] " line
  | _ => false
  end.

(** A call of [NewRunner] with at least one prefix in its configuration. *)
Definition new_runner_has_prefix (e : effect) : Prop :=
  match e with
  | CallNewRunner config _ _ => Prefixes config ≠ []
  | _ => True
  end.

(** The events on which the loop returns: every one but a signal other
    than SIGINT, SIGTERM and SIGQUIT. *)
Definition terminal (ev : event) : bool :=
  match ev with
  | EvSignal s => is_interrupt s
  | _ => true
  end.

(** The effects of the event loop: log lines, messages on the error
    stream, and calls of [runner.Signal] and [runner.Stop]. *)
Definition loop_effect (e : effect) : Prop :=
  match e with
  | LogPrintf _ | ErrStream _ | RunnerSignal _ | RunnerStop => True
  | _ => False
  end.

(** The constants that [Run] itself returns. *)
Definition returned_constants : list Z :=
  [ ExitCodeOK; ExitCodeError; ExitCodeInterrupt; ExitCodeLoggingError
  ; ExitCodeParseFlagsError; ExitCodeRunnerError ].

(** The mutex is free and the stop channel is closed exactly when the
    flag is set. *)
Definition cli_consistent (cli : CLI) : Prop :=
  locked cli = false ∧ (stopCh cli = ChanClosed ↔ stopped cli = true).

(** * Properties *)

(** ** The merger *)
Section MergerFacts.
Import Merger.
Context (tr : string → string).
Implicit Types (env : gmap string string) (snap : KVSnapshot)
  (st : gmap string KVSnapshot) (ps : list StoreKeyPrefix) (name v : string).

Lemma insert_pairs_lookup snap env name :
  insert_pairs tr env snap !! name =
    match snapshot_value tr name snap with
    | Some v => Some v
    | None => env !! name
    end.
Proof.
  revert env. induction snap as [|[k w] rest IH]; intros env; [done|].
  change (insert_pairs tr env ((k, w) :: rest))
    with (insert_pairs tr (<[tr k := w]> env) rest).
  rewrite IH. simpl. destruct (snapshot_value tr name rest); [done|].
  rewrite lookup_insert. by destruct (decide (tr k = name)).
Qed.

Lemma merge_from_lookup ps env st name :
  merge_from tr env ps st !! name =
    match rightmost_value tr name ps st with
    | Some v => Some v
    | None => env !! name
    end.
Proof.
  revert env. induction ps as [|p ps IH]; intros env; [done|].
  change (merge_from tr env (p :: ps) st)
    with (merge_from tr (insert_pairs tr env (latest st p)) ps st).
  rewrite IH. simpl. destruct (rightmost_value tr name ps st); [done|].
  apply insert_pairs_lookup.
Qed.

Lemma merge_lookup ps st name :
  merge tr ps st !! name = rightmost_value tr name ps st.
Proof.
  unfold merge. rewrite merge_from_lookup.
  by destruct (rightmost_value tr name ps st).
Qed.

(** A snapshot gives a name no value exactly when none of its keys is
    transformed to that name. *)
Lemma snapshot_value_None snap name :
  snapshot_value tr name snap = None ↔ ∀ k w, (k, w) ∈ snap → tr k ≠ name.
Proof.
  induction snap as [|[k0 w0] rest IH]; simpl.
  - split; [|done]. intros _ k w Hin. by apply elem_of_nil in Hin.
  - destruct (snapshot_value tr name rest) as [w'|] eqn:E.
    + split; [done|]. intros H.
      assert (Hrest : (Some w' : option string) = None); [|done].
      apply IH. intros k w Hin. apply (H k w), elem_of_cons. by right.
    + destruct (decide (tr k0 = name)) as [Heq|Hne].
      * split; [done|]. intros H. exfalso.
        apply (H k0 w0); [|done]. apply elem_of_cons. by left.
      * split; [|done]. intros _ k w [Hhd|Htl]%elem_of_cons.
        -- by inversion Hhd; subst.
        -- destruct IH as [IH _]. by apply (IH eq_refl k w).
Qed.

(** The value a snapshot gives to a name is the value of one of its keys
    that is transformed to that name. *)
Lemma snapshot_value_Some snap name v :
  snapshot_value tr name snap = Some v → ∃ k, (k, v) ∈ snap ∧ tr k = name.
Proof.
  induction snap as [|[k0 w0] rest IH]; simpl; [done|].
  destruct (snapshot_value tr name rest) as [w'|] eqn:E.
  - intros [= ->]. destruct (IH eq_refl) as (k & Hin & Hk).
    exists k. split; [|done]. apply elem_of_cons. by right.
  - destruct (decide (tr k0 = name)) as [Heq|Hne]; [|done].
    intros [= ->]. exists k0. split; [|done]. apply elem_of_cons. by left.
Qed.

Lemma rightmost_value_None ps st name :
  rightmost_value tr name ps st = None ↔
  ∀ (j : nat) q, ps !! j = Some q → snapshot_value tr name (latest st q) = None.
Proof.
  induction ps as [|p ps IH]; simpl; [done|].
  destruct (rightmost_value tr name ps st) as [w|] eqn:E.
  - split; [done|]. intros H.
    assert (Hps : (Some w : option string) = None); [|done].
    apply IH. intros j q Hj. by apply (H (S j) q).
  - split.
    + intros Hp [|j] q Hj; simplify_eq/=; [done|].
      destruct IH as [IH _]. by apply (IH eq_refl j q).
    + intros H. by apply (H 0%nat p).
Qed.

Lemma rightmost_value_spec ps st name v :
  rightmost_value tr name ps st = Some v ↔
  ∃ (i : nat) p, ps !! i = Some p
    ∧ snapshot_value tr name (latest st p) = Some v
    ∧ ∀ (j : nat) q, (i < j)%nat → ps !! j = Some q →
        snapshot_value tr name (latest st q) = None.
Proof.
  revert v. induction ps as [|p ps IH]; intros v; simpl.
  - split; [done|]. by intros (i & q & Hi & _).
  - destruct (rightmost_value tr name ps st) as [w|] eqn:E.
    + split.
      * intros [= ->]. destruct (proj1 (IH v) eq_refl) as (i & q & Hi & Hv & Hlast).
        exists (S i), q. repeat split; [done..|].
        intros [|j] q' Hlt Hj; [lia|]. apply (Hlast j q'); [lia|done].
      * intros (i & q & Hi & Hv & Hlast). destruct i as [|i].
        -- destruct (proj1 (IH w) eq_refl) as (j & q' & Hj & Hw & _).
           rewrite (Hlast (S j) q') in Hw; [done|lia|done].
        -- apply IH. exists i, q. repeat split; [done..|].
           intros j q' Hlt Hj. apply (Hlast (S j) q'); [lia|done].
    + pose proof (proj1 (rightmost_value_None ps st name) E) as Hnone.
      split.
      * intros Hv. exists 0%nat, p. repeat split; [done..|].
        intros [|j] q' Hlt Hj; [lia|]. by apply (Hnone j q').
      * intros (i & q & Hi & Hv & Hlast). destruct i as [|i].
        -- by simplify_eq/=.
        -- rewrite (Hnone i q) in Hv; done.
Qed.

End MergerFacts.

(** ** The event loop *)
Section EventLoop.
Implicit Types (evs rest more : list event) (tr : list effect).

Lemma emit_inv e k tr o :
  emit e k = (tr, o) → ∃ tr', tr = e :: tr' ∧ k = (tr', o).
Proof. destruct k as [tr' o']. intros [= <- <-]. by exists tr'. Qed.

(** A loop that is still waiting goes on with the events that follow. *)
Lemma eventLoop_app evs tr more :
  eventLoop evs = (tr, Waiting) →
  eventLoop (evs ++ more) = ((tr ++ (eventLoop more).1)%list, (eventLoop more).2).
Proof.
  revert tr. induction evs as [|ev evs IH]; intros tr.
  - intros [= <-]. simpl. by destruct (eventLoop more).
  - destruct ev as [err| |code|s|]; simpl; try done.
    + by case_bool_decide.
    + destruct (is_interrupt s); [done|].
      intros (tr' & -> & E)%emit_inv. by rewrite (IH tr' E).
Qed.

Lemma eventLoop_exit code rest :
  eventLoop (EvExit code :: rest) =
    ((LogPrintf msg_subprocess_exited :: RunnerStop ::
      (if bool_decide (code = 0) then []
       else [LogPrintf ("[ERR] " ++ msg_unexpected code)]))%list,
     Exit code).
Proof. simpl. change ExitCodeOK with 0. by case_bool_decide; subst. Qed.

Lemma eventLoop_signal_interrupt s rest :
  is_interrupt s = true →
  eventLoop (EvSignal s :: rest) =
    ([RunnerSignal s; ErrStream msg_interrupt; RunnerStop], Exit ExitCodeInterrupt).
Proof. simpl. by intros ->. Qed.

Lemma eventLoop_signal_other s rest :
  is_interrupt s = false →
  eventLoop (EvSignal s :: rest) =
    (RunnerSignal s :: (eventLoop rest).1, (eventLoop rest).2).
Proof. simpl. by intros ->. Qed.

Lemma is_interrupt_spec (s : Signal) :
  is_interrupt s = true ↔ s = SIGINT ∨ s = SIGTERM ∨ s = SIGQUIT.
Proof.
  unfold is_interrupt. rewrite !orb_true_iff, !bool_decide_eq_true. tauto.
Qed.

End EventLoop.

(** ** [Run] as start-up followed by the event loop *)
Section RunFacts.
Context (X : Externals).
Implicit Types (args : list string) (evs rest more : list event)
  (tr : list effect) (config : Config).

Lemma startRunner_loop config command once evs :
  NewRunner X config command once = None →
  startRunner X config command once evs =
    ((CallNewRunner config command once :: GoRunnerStart :: SignalNotify ::
      (eventLoop evs).1)%list, (eventLoop evs).2).
Proof. unfold startRunner. by intros ->. Qed.

Lemma startRunner_fails config command once evs err :
  NewRunner X config command once = Some err →
  startRunner X config command once evs =
    ([CallNewRunner config command once; LogPrintf ("[ERR] " ++ err)],
     Exit ExitCodeRunnerError).
Proof. unfold startRunner. by intros ->. Qed.

Lemma startRunner_app config command once evs tr more :
  startRunner X config command once evs = (tr, Waiting) →
  startRunner X config command once (evs ++ more) =
    ((tr ++ (eventLoop more).1)%list, (eventLoop more).2).
Proof.
  unfold startRunner.
  destruct (NewRunner X config command once); [done|].
  intros (? & -> & (? & -> & (tr' & -> & E)%emit_inv)%emit_inv)%emit_inv.
  by rewrite (eventLoop_app evs tr' more E).
Qed.

(** An invocation that is blocked in [select] goes on with the events
    that follow. *)
Lemma Run_app args evs tr more :
  Run X args evs = (tr, Waiting) →
  Run X args (evs ++ more) = ((tr ++ (eventLoop more).1)%list, (eventLoop more).2).
Proof.
  unfold Run. destruct args as [|a0 args]; [done|].
  destruct (parseFlags X args) as [err|[[[config pargs] once] version]]; [done|].
  unfold runParsed.
  destruct (logging_Setup X (loggingConfig X config)); [done|].
  destruct version; [done|].
  case_bool_decide.
  - intros (tr' & -> & E)%emit_inv.
    by rewrite (startRunner_app _ _ _ _ _ more E).
  - case_bool_decide; [done|].
    destruct (pargs !! 0%nat) as [raw|]; [|done].
    destruct (ParseStoreKeyPrefix X raw) as [err|prefix]; [done|].
    intros (? & -> & (? & -> & (tr' & -> & E)%emit_inv)%emit_inv)%emit_inv.
    by rewrite (startRunner_app _ _ _ _ _ more E).
Qed.

End RunFacts.

(** ** What [Run] does with each event *)

Lemma Run_runner_error X args evs tr err rest :
  Run X args evs = (tr, Waiting) →
  Run X args (evs ++ EvErr err :: rest) =
    ((tr ++ [LogPrintf ("[ERR] " ++ err)])%list, Exit ExitCodeRunnerError).
Proof. intros H. by rewrite (Run_app X args evs tr _ H). Qed.

Lemma Run_signal X args evs tr s rest :
  Run X args evs = (tr, Waiting) →
  Run X args (evs ++ EvSignal s :: rest) =
    if is_interrupt s
    then ((tr ++ [RunnerSignal s; ErrStream msg_interrupt; RunnerStop])%list,
          Exit ExitCodeInterrupt)
    else ((tr ++ RunnerSignal s :: (eventLoop rest).1)%list, (eventLoop rest).2).
Proof.
  intros H. rewrite (Run_app X args evs tr _ H).
  destruct (is_interrupt s) eqn:E.
  - by rewrite (eventLoop_signal_interrupt s rest E).
  - by rewrite (eventLoop_signal_other s rest E).
Qed.

Lemma Run_stopCh X args evs tr rest :
  Run X args evs = (tr, Waiting) →
  Run X args (evs ++ EvStopCh :: rest) = (tr, Exit ExitCodeOK).
Proof. intros H. rewrite (Run_app X args evs tr _ H). simpl. by rewrite app_nil_r. Qed.

(** C1: a child-exit event ends the invocation.  [Run] logs the exit,
    calls [runner.Stop()], and returns the child's code: [ExitCodeOK] (0)
    for code 0 and the code itself otherwise, in which case the error is
    logged first.  Nothing that follows the event is looked at. *)
Theorem child_exit_ends_run X args evs tr code rest :
  Run X args evs = (tr, Waiting) →
  Run X args (evs ++ EvExit code :: rest) =
    ((tr ++ LogPrintf msg_subprocess_exited :: RunnerStop ::
        (if bool_decide (code = 0) then []
         else [LogPrintf ("[ERR] " ++ msg_unexpected code)]))%list,
     Exit code)
  ∧ (code = 0 → (Run X args (evs ++ EvExit code :: rest)).2 = Exit ExitCodeOK)
  ∧ Run X args (evs ++ EvExit code :: rest) = Run X args (evs ++ [EvExit code]).
Proof.
  intros H. rewrite !(Run_app X args evs tr _ H), !eventLoop_exit.
  repeat split. by intros ->.
Qed.

Lemma child_exit_ends_run_witness :
  let args := ["envconsul"; "-prefix"; "app"; "env"] in
  let tr := (Run Sample.world args [EvSignal 1]).1 in
  Run Sample.world args ([EvSignal 1] ++ EvExit 3 :: [EvDone]) =
    ((tr ++ [LogPrintf msg_subprocess_exited; RunnerStop;
             LogPrintf "[ERR] unexpected exit from subprocess (3)"])%list, Exit 3).
Proof.
  intros args tr.
  apply (child_exit_ends_run Sample.world args [EvSignal 1] tr 3 [EvDone]).
  reflexivity.
Defined.

(** C5: when the done channel fires, [Run] returns [ExitCodeOK] (0) at
    once: nothing is logged or written, the runner is not touched, and no
    later event is processed. *)
Theorem done_returns_ok X args evs tr rest :
  Run X args evs = (tr, Waiting) →
  Run X args (evs ++ EvDone :: rest) = (tr, Exit ExitCodeOK) ∧ ExitCodeOK = 0.
Proof.
  intros H. rewrite (Run_app X args evs tr _ H). simpl. by rewrite app_nil_r.
Qed.

Lemma done_returns_ok_witness :
  let args := ["envconsul"; "-prefix"; "app"; "env"] in
  Run Sample.world args ([EvSignal 1] ++ EvDone :: [EvExit 4]) =
    ((Run Sample.world args [EvSignal 1]).1, Exit 0).
Proof.
  intros args.
  apply (done_returns_ok Sample.world args [EvSignal 1] _ [EvExit 4]).
  reflexivity.
Defined.

(** C2, as the code has it: the child's exit code is returned unchanged,
    so its status differs from that of every internal fault exactly when
    the code is not itself one of the reserved constants
    [ExitCodeError] .. [ExitCodeWatcherError]. *)
Theorem child_status_distinct_iff_unreserved X args evs tr code rest :
  Run X args evs = (tr, Waiting) →
  (Run X args (evs ++ EvExit code :: rest)).2 = Exit code
  ∧ ((∀ fault, fault ∈ internal_codes →
        (Run X args (evs ++ EvExit code :: rest)).2 ≠ Exit fault)
     ↔ code ∉ internal_codes).
Proof.
  intros H. destruct (child_exit_ends_run X args evs tr code rest H) as (-> & _).
  simpl. split; [done|]. split.
  - intros Hd Hin. by apply (Hd code Hin).
  - intros Hn fault Hin [= ->]. by apply Hn.
Qed.

Lemma child_status_distinct_iff_unreserved_witness :
  let args := ["envconsul"; "-prefix"; "app"; "env"] in
  (Run Sample.world args ([] ++ EvExit 3 :: [])).2 = Exit 3
  ∧ ((∀ fault, fault ∈ internal_codes →
        (Run Sample.world args ([] ++ EvExit 3 :: [])).2 ≠ Exit fault)
     ↔ 3 ∉ internal_codes).
Proof.
  intros args.
  apply (child_status_distinct_iff_unreserved Sample.world args []
           (Run Sample.world args []).1 3 []).
  reflexivity.
Defined.

(** C2, as stated, fails: a child that exits with the value of
    [ExitCodeRunnerError] gives the same status as a runner error. *)
Lemma child_status_collides_with_runner_error :
  let args := ["envconsul"; "-prefix"; "app"; "env"] in
  (Run Sample.world args [EvExit 16]).2 = Exit 16
  ∧ (Run Sample.world args [EvErr "watcher: connection refused"]).2 = Exit 16
  ∧ ExitCodeRunnerError = 16.
Proof. by vm_compute. Qed.

(** ** Signals *)

(** Every signal is handed to the runner; an interrupt then stops the
    runner and ends the invocation with [ExitCodeInterrupt], any other
    signal leaves the loop waiting, with no call on the runner but
    [runner.Signal]. *)
Lemma Run_signal_cases X args evs tr s rest :
  Run X args evs = (tr, Waiting) →
  (s = SIGINT ∨ s = SIGTERM ∨ s = SIGQUIT →
     Run X args (evs ++ EvSignal s :: rest) =
       ((tr ++ [RunnerSignal s; ErrStream msg_interrupt; RunnerStop])%list,
        Exit ExitCodeInterrupt))
  ∧ (s ≠ SIGINT → s ≠ SIGTERM → s ≠ SIGQUIT →
     Run X args (evs ++ EvSignal s :: rest) =
       ((tr ++ RunnerSignal s :: (eventLoop rest).1)%list, (eventLoop rest).2)
     ∧ Run X args (evs ++ [EvSignal s]) = ((tr ++ [RunnerSignal s])%list, Waiting)).
Proof.
  intros H. split.
  - intros Hs%is_interrupt_spec. by rewrite (Run_signal X args evs tr s rest H), Hs.
  - intros H1 H2 H3.
    assert (Hs : is_interrupt s = false).
    { apply not_true_is_false. rewrite is_interrupt_spec. tauto. }
    by rewrite !(Run_signal X args evs tr s _ H), Hs.
Qed.

(** C3: SIGHUP is forwarded and the loop goes on; SIGTERM is forwarded,
    the runner is stopped and [Run] returns [ExitCodeInterrupt], whose
    value in the const block is 12 (10 + iota, with iota = 2), not 11. *)
Theorem interrupt_status_is_12 :
  let args := ["envconsul"; "-prefix"; "app"; "env"] in
  Run Sample.world args [EvSignal 1; EvSignal SIGTERM; EvDone] =
    (((Run Sample.world args []).1 ++
      [RunnerSignal 1; RunnerSignal SIGTERM; ErrStream msg_interrupt; RunnerStop])%list,
     Exit 12)
  ∧ ExitCodeInterrupt = 12
  ∧ ExitCodeInterrupt ≠ 11.
Proof. by vm_compute. Qed.

(** ** Runner failures *)

Lemma Run_new_runner_fails X a0 args evs config pargs once err :
  parseFlags X args = inr (config, pargs, once, false) →
  logging_Setup X (loggingConfig X config) = None →
  Prefixes config ≠ [] →
  NewRunner X config pargs once = Some err →
  Run X (a0 :: args) evs =
    ([CallLoggingSetup (loggingConfig X config); CallNewRunner config pargs once;
      LogPrintf ("[ERR] " ++ err)], Exit ExitCodeRunnerError).
Proof.
  intros Hp Hl Hne Hr. unfold Run. rewrite Hp. unfold runParsed. rewrite Hl.
  rewrite bool_decide_eq_true_2 by (destruct (Prefixes config); [done|simpl; lia]).
  by rewrite (startRunner_fails X _ _ _ _ err Hr).
Qed.

(** C4: an error on the runner's error channel, and a failure of
    [NewRunner] before any runner is started, both end the invocation
    with [ExitCodeRunnerError], whose value in the const block is 16
    (10 + iota, with iota = 6), not 15. *)
Theorem runner_error_status_is_16 :
  let args := ["envconsul"; "-prefix"; "app"; "env"] in
  let config := with_Prefixes Sample.config0 [{| PrefixPath := "app" |}] in
  Run Sample.world args [EvErr "exec: not found"; EvDone] =
    (((Run Sample.world args []).1 ++ [LogPrintf "[ERR] exec: not found"])%list, Exit 16)
  ∧ Run Sample.world ["envconsul"; "-prefix"; "app"; ""] [EvDone] =
      ([CallLoggingSetup (loggingConfig Sample.world config);
        CallNewRunner config [""] false;
        LogPrintf "[ERR] runner: empty command"], Exit 16)
  ∧ ExitCodeRunnerError = 16
  ∧ ExitCodeRunnerError ≠ 15.
Proof. by vm_compute. Qed.

(** ** [stop] *)

Lemma stop_n_stopped (n : nat) (cli : CLI) :
  locked cli = false → stopped cli = true →
  (stop_n n cli).2 = Returned cli ∧ closes (stop_n n cli).1 = 0%nat.
Proof.
  intros Hl Hs. induction n as [|n [IH1 IH2]]; [done|].
  simpl. unfold stop. rewrite Hl, Hs. simpl. by rewrite IH1.
Qed.

(** One call from a state whose mutex is free and whose channel is only
    closed when the flag is set: it returns with the flag set and the
    channel closed, having closed the channel at most once. *)
Lemma stop_once (cli : CLI) :
  locked cli = false → (stopCh cli = ChanClosed → stopped cli = true) →
  ∃ cli', (stop cli).2 = Returned cli'
    ∧ locked cli' = false ∧ stopped cli' = true
    ∧ closes (stop cli).1 = (if stopped cli then 0 else 1)%nat.
Proof.
  intros Hl Hinv. unfold stop. rewrite Hl.
  destruct (stopped cli) eqn:Hs.
  - by exists cli.
  - destruct (stopCh cli) eqn:Hc; [|by specialize (Hinv eq_refl)].
    by eexists.
Qed.

Lemma closes_app (ops1 ops2 : list cli_op) :
  closes (ops1 ++ ops2) = (closes ops1 + closes ops2)%nat.
Proof. unfold closes. by rewrite List.filter_app, length_app. Qed.

Lemma stop_n_NewCLI (n : nat) :
  stop_n (S n) NewCLI =
    (([OpLock; OpClose; OpUnlock] ++ (stop_n n stoppedCLI).1)%list,
     (stop_n n stoppedCLI).2).
Proof. reflexivity. Qed.

(** C6: [stop] is idempotent.  The first call on a new CLI locks, closes
    the stop channel, sets the flag and unlocks; a call on the resulting
    state only locks and unlocks and leaves the state as it was; so [n]
    calls (n >= 1) end in the state one call ends in, none of them panics
    on a closed channel, and the channel is closed exactly once. *)
Theorem stop_idempotent (n : nat) :
  (1 ≤ n)%nat →
  stop NewCLI = ([OpLock; OpClose; OpUnlock], Returned stoppedCLI)
  ∧ stop stoppedCLI = ([OpLock; OpUnlock], Returned stoppedCLI)
  ∧ (stop_n n NewCLI).2 = (stop NewCLI).2
  ∧ closes (stop_n n NewCLI).1 = 1%nat.
Proof.
  intros Hn. destruct n as [|n]; [lia|].
  destruct (stop_n_stopped n stoppedCLI eq_refl eq_refl) as [Hr Hc].
  rewrite stop_n_NewCLI. repeat split; [done|].
  cbn [fst]. by rewrite closes_app, Hc.
Qed.

Lemma stop_idempotent_witness :
  stop NewCLI = ([OpLock; OpClose; OpUnlock], Returned stoppedCLI)
  ∧ stop stoppedCLI = ([OpLock; OpUnlock], Returned stoppedCLI)
  ∧ (stop_n 3 NewCLI).2 = (stop NewCLI).2
  ∧ closes (stop_n 3 NewCLI).1 = 1%nat.
Proof. apply (stop_idempotent 3). lia. Defined.

(** ** Start-up *)

Lemma Run_parse_error X a0 args events err :
  parseFlags X args = inl err →
  Run X (a0 :: args) events =
    ([LogPrintf ("[ERR] " ++ err)], Exit ExitCodeParseFlagsError).
Proof. intros H. unfold Run. by rewrite H. Qed.

Lemma Run_logging_error X a0 args events config pargs once version err :
  parseFlags X args = inr (config, pargs, once, version) →
  logging_Setup X (loggingConfig X config) = Some err →
  Run X (a0 :: args) events =
    ([CallLoggingSetup (loggingConfig X config); LogPrintf ("[ERR] " ++ err)],
     Exit ExitCodeLoggingError).
Proof. intros Hp Hl. unfold Run. rewrite Hp. unfold runParsed. by rewrite Hl. Qed.

(** C9: with [-version], once the flags are parsed and logging is set up,
    [Run] writes the name and version to the error stream and returns
    [ExitCodeOK] (0); no runner is created or started.  A flag-parse error
    returns [ExitCodeParseFlagsError] and a logging-setup error
    [ExitCodeLoggingError], whatever the version flag. *)
Theorem version_request X a0 args events :
  (∀ config pargs once,
     parseFlags X args = inr (config, pargs, once, true) →
     logging_Setup X (loggingConfig X config) = None →
     Run X (a0 :: args) events =
       ([CallLoggingSetup (loggingConfig X config); LogPrintf msg_version;
         ErrStream (Name X ++ " v" ++ Version X ++ newline)], Exit ExitCodeOK))
  ∧ (∀ err, parseFlags X args = inl err →
       Run X (a0 :: args) events =
         ([LogPrintf ("[ERR] " ++ err)], Exit ExitCodeParseFlagsError))
  ∧ (∀ config pargs once version err,
       parseFlags X args = inr (config, pargs, once, version) →
       logging_Setup X (loggingConfig X config) = Some err →
       Run X (a0 :: args) events =
         ([CallLoggingSetup (loggingConfig X config); LogPrintf ("[ERR] " ++ err)],
          Exit ExitCodeLoggingError))
  ∧ ExitCodeOK = 0.
Proof.
  split; [|split; [|split; [|done]]].
  - intros config pargs once Hp Hl. unfold Run. rewrite Hp. unfold runParsed.
    by rewrite Hl.
  - intros err. apply Run_parse_error.
  - intros config pargs once version err. apply Run_logging_error.
Qed.

Lemma version_request_witness :
  Run Sample.world ["envconsul"; "-version"; "app"; "env"] [EvDone] =
    ([CallLoggingSetup (loggingConfig Sample.world Sample.config0);
      LogPrintf msg_version; ErrStream ("envconsul v0.5.0" ++ newline)], Exit ExitCodeOK)
  ∧ Run Sample.world ["envconsul"; "-version"; "-bogus"] [EvDone] =
      ([LogPrintf "[ERR] flag provided but not defined: -bogus"],
       Exit ExitCodeParseFlagsError)
  ∧ Run Sample.world ["envconsul"; "-version"; "-log-level"; "LOUD"] [EvDone] =
      ([CallLoggingSetup
          (loggingConfig Sample.world (Sample.with_LogLevel Sample.config0 "LOUD"));
        LogPrintf "[ERR] invalid log level LOUD"], Exit ExitCodeLoggingError).
Proof.
  split; [|split].
  - apply (proj1 (version_request Sample.world "envconsul"
                    ["-version"; "app"; "env"] [EvDone])
             Sample.config0 ["app"; "env"] false); reflexivity.
  - apply (proj1 (proj2 (version_request Sample.world "envconsul"
                           ["-version"; "-bogus"] [EvDone]))
             "flag provided but not defined: -bogus"); reflexivity.
  - apply (proj1 (proj2 (proj2 (version_request Sample.world "envconsul"
                                  ["-version"; "-log-level"; "LOUD"] [EvDone])))
             (Sample.with_LogLevel Sample.config0 "LOUD") [] false true
             "invalid log level LOUD"); reflexivity.
Defined.

(** C7, as the code has it: a flag-parse error returns
    [ExitCodeParseFlagsError] before logging is set up; and when the flags
    are parsed, logging is set up and no version was asked for, an
    invocation without configured prefixes and with fewer than two
    positional arguments logs ``cli: missing required arguments prefix and
    command'' and returns [ExitCodeParseFlagsError]; no runner is created
    in either case. *)
Theorem missing_arguments_or_bad_flags X a0 args events :
  (∀ err, parseFlags X args = inl err →
     Run X (a0 :: args) events =
       ([LogPrintf ("[ERR] " ++ err)], Exit ExitCodeParseFlagsError))
  ∧ (∀ config pargs once,
       parseFlags X args = inr (config, pargs, once, false) →
       logging_Setup X (loggingConfig X config) = None →
       Prefixes config = [] →
       (length pargs < 2)%nat →
       Run X (a0 :: args) events =
         ([CallLoggingSetup (loggingConfig X config);
           LogPrintf ("[ERR] " ++ msg_missing)], Exit ExitCodeParseFlagsError)).
Proof.
  split.
  - intros err. apply Run_parse_error.
  - intros config pargs once Hp Hl Hnil Hlen. unfold Run. rewrite Hp.
    unfold runParsed. rewrite Hl, Hnil.
    rewrite bool_decide_eq_false_2 by (simpl; lia).
    by rewrite bool_decide_eq_true_2.
Qed.

Lemma missing_arguments_or_bad_flags_witness :
  Run Sample.world ["envconsul"; "-bogus"; "app"; "env"] [EvDone] =
    ([LogPrintf "[ERR] flag provided but not defined: -bogus"],
     Exit ExitCodeParseFlagsError)
  ∧ Run Sample.world ["envconsul"; "-once"; "app"] [EvDone] =
      ([CallLoggingSetup (loggingConfig Sample.world Sample.config0);
        LogPrintf ("[ERR] " ++ msg_missing)], Exit ExitCodeParseFlagsError).
Proof.
  split.
  - apply (proj1 (missing_arguments_or_bad_flags Sample.world "envconsul"
                    ["-bogus"; "app"; "env"] [EvDone])
             "flag provided but not defined: -bogus"); reflexivity.
  - apply (proj2 (missing_arguments_or_bad_flags Sample.world "envconsul"
                    ["-once"; "app"] [EvDone])
             Sample.config0 ["app"] true); [reflexivity..|simpl; lia].
Defined.

(** C7, as stated, fails: with [-version], no prefix and no positional
    argument, [Run] prints the version and returns [ExitCodeOK]. *)
Lemma version_precedes_missing_arguments :
  parseFlags Sample.world ["-version"] = inr (Sample.config0, [], false, true)
  ∧ Prefixes Sample.config0 = []
  ∧ Run Sample.world ["envconsul"; "-version"] [EvDone] =
      ([CallLoggingSetup (loggingConfig Sample.world Sample.config0);
        LogPrintf msg_version; ErrStream ("envconsul v0.5.0" ++ newline)], Exit 0)
  ∧ Exit 0 ≠ Exit ExitCodeParseFlagsError.
Proof. by vm_compute. Qed.

(** C10, as the code has it: once the flags are parsed, logging is set up
    and no version was asked for, (a) with a configured prefix all
    positional arguments are the command given to [NewRunner]; (b) without
    one and with at least two positional arguments, the first is parsed as
    a store-key prefix: on success it is appended to the prefixes and the
    other arguments are the command given to [NewRunner], on failure [Run]
    returns [ExitCodeError] and no runner is created. *)
Theorem command_selection X a0 args events config pargs once :
  parseFlags X args = inr (config, pargs, once, false) →
  logging_Setup X (loggingConfig X config) = None →
  (Prefixes config ≠ [] →
     Run X (a0 :: args) events =
       do CallLoggingSetup (loggingConfig X config);
       startRunner X config pargs once events)
  ∧ (Prefixes config = [] → (2 ≤ length pargs)%nat →
     ∃ prefixRaw, pargs !! 0%nat = Some prefixRaw ∧
       match ParseStoreKeyPrefix X prefixRaw with
       | inr prefix =>
           Run X (a0 :: args) events =
             do CallLoggingSetup (loggingConfig X config);
             do LogPrintf msg_deprecated;
             do CallParseStoreKeyPrefix prefixRaw;
             startRunner X (with_Prefixes config (Prefixes config ++ [prefix]))
                         (drop 1 pargs) once events
       | inl err =>
           Run X (a0 :: args) events =
             ([CallLoggingSetup (loggingConfig X config); LogPrintf msg_deprecated;
               CallParseStoreKeyPrefix prefixRaw; LogPrintf ("[ERR] " ++ err)],
              Exit ExitCodeError)
       end).
Proof.
  intros Hp Hl. unfold Run. rewrite Hp. unfold runParsed. rewrite Hl. split.
  - intros Hne.
    by rewrite bool_decide_eq_true_2 by (destruct (Prefixes config); [done|simpl; lia]).
  - intros Hnil Hlen. rewrite Hnil.
    rewrite bool_decide_eq_false_2 by (simpl; lia).
    rewrite bool_decide_eq_false_2 by lia.
    destruct pargs as [|prefixRaw command]; [simpl in Hlen; lia|].
    exists prefixRaw. split; [done|]. simpl.
    by destruct (ParseStoreKeyPrefix X prefixRaw).
Qed.

Lemma command_selection_witness :
  Run Sample.world ["envconsul"; "-prefix"; "app"; "env"; "-i"] [EvDone] =
    (do CallLoggingSetup
          (loggingConfig Sample.world
             (with_Prefixes Sample.config0 [{| PrefixPath := "app" |}]));
     startRunner Sample.world
       (with_Prefixes Sample.config0 [{| PrefixPath := "app" |}])
       ["env"; "-i"] false [EvDone])
  ∧ Run Sample.world ["envconsul"; "app"; "env"; "-i"] [EvDone] =
      (do CallLoggingSetup (loggingConfig Sample.world Sample.config0);
       do LogPrintf msg_deprecated;
       do CallParseStoreKeyPrefix "app";
       startRunner Sample.world
         (with_Prefixes Sample.config0 [{| PrefixPath := "app" |}])
         ["env"; "-i"] false [EvDone])
  ∧ Run Sample.world ["envconsul"; "@dc1"; "env"] [EvDone] =
      ([CallLoggingSetup (loggingConfig Sample.world Sample.config0);
        LogPrintf msg_deprecated; CallParseStoreKeyPrefix "@dc1";
        LogPrintf "[ERR] invalid key prefix dependency format"],
       Exit ExitCodeError).
Proof.
  split; [|split].
  - apply (proj1 (command_selection Sample.world "envconsul"
                    ["-prefix"; "app"; "env"; "-i"] [EvDone]
                    (with_Prefixes Sample.config0 [{| PrefixPath := "app" |}])
                    ["env"; "-i"] false eq_refl eq_refl)).
    simpl. discriminate.
  - destruct (proj2 (command_selection Sample.world "envconsul"
                       ["app"; "env"; "-i"] [EvDone]
                       Sample.config0 ["app"; "env"; "-i"] false eq_refl eq_refl)
                eq_refl) as (raw & Hraw & H); [simpl; lia|].
    injection Hraw as <-. exact H.
  - destruct (proj2 (command_selection Sample.world "envconsul"
                       ["@dc1"; "env"] [EvDone]
                       Sample.config0 ["@dc1"; "env"] false eq_refl eq_refl)
                eq_refl) as (raw & Hraw & H); [simpl; lia|].
    injection Hraw as <-. exact H.
Defined.

(** C10, as stated, fails: without a configured prefix, a single
    positional argument is neither parsed as a prefix nor followed by a
    runner or by [ExitCodeError]; [Run] reports the missing arguments. *)
Lemma single_argument_is_not_parsed :
  parseFlags Sample.world ["app"] = inr (Sample.config0, ["app"], false, false)
  ∧ Run Sample.world ["envconsul"; "app"] [EvDone] =
      ([CallLoggingSetup (loggingConfig Sample.world Sample.config0);
        LogPrintf ("[ERR] " ++ msg_missing)], Exit ExitCodeParseFlagsError)
  ∧ ExitCodeParseFlagsError ≠ ExitCodeError.
Proof. by vm_compute. Qed.

(** ** Precedence among prefixes *)

(** C8: the merged environment gives a name the value [v] exactly when
    some configured prefix is the right-most one whose latest snapshot has
    a key transformed to that name, and [v] is the value that snapshot
    gives the name (the value of one of its keys with that name: the last
    one inserted).  Snapshots of prefixes further left are overridden,
    whatever the order in which the snapshots arrived. *)
Theorem merge_rightmost_prefix_wins (tr : string → string)
    (prefixes : list StoreKeyPrefix) (st : gmap string Merger.KVSnapshot)
    (name v : string) :
  Merger.merge tr prefixes st !! name = Some v ↔
  ∃ (i : nat) p, prefixes !! i = Some p
    ∧ Merger.snapshot_value tr name (Merger.latest st p) = Some v
    ∧ (∃ k, (k, v) ∈ Merger.latest st p ∧ tr k = name)
    ∧ ∀ (j : nat) q, (i < j)%nat → prefixes !! j = Some q →
        ∀ k w, (k, w) ∈ Merger.latest st q → tr k ≠ name.
Proof.
  rewrite merge_lookup, rightmost_value_spec. split.
  - intros (i & p & Hi & Hv & Hlast). exists i, p. repeat split; [done..| |].
    + by apply snapshot_value_Some.
    + intros j q Hlt Hj. by apply snapshot_value_None, (Hlast j q).
  - intros (i & p & Hi & Hv & _ & Hlast). exists i, p. repeat split; [done..|].
    intros j q Hlt Hj. by apply snapshot_value_None, (Hlast j q).
Qed.

(** The example of the specification: prefixes [A = {x: 1}] and
    [B = {x: 2}], configured in this order, merge to [{x: 2}]. *)
Lemma merge_rightmost_prefix_wins_witness :
  let A := {| PrefixPath := "A" |} in
  let B := {| PrefixPath := "B" |} in
  let st := Merger.update B [("x", "2")] (Merger.update A [("x", "1")] ∅) in
  Merger.merge (λ k, Merger.transform k true false) [A; B] st !! "x" = Some "2".
Proof.
  intros A B st.
  apply (proj2 (merge_rightmost_prefix_wins _ [A; B] st "x" "2")).
  exists 1%nat, B. split; [reflexivity|]. split; [reflexivity|]. split.
  - exists "x". split; [|reflexivity].
    change (Merger.latest st B) with [("x", "2")]. apply list_elem_of_here.
  - intros j q Hlt Hj. exfalso. destruct j as [|[|j]]; [lia|lia|discriminate].
Defined.

(** No name is defined unless some configured prefix defines it. *)
Lemma merge_undefined (tr : string → string) (prefixes : list StoreKeyPrefix)
    (st : gmap string Merger.KVSnapshot) (name : string) :
  Merger.merge tr prefixes st !! name = None ↔
  ∀ (j : nat) q, prefixes !! j = Some q →
    ∀ k w, (k, w) ∈ Merger.latest st q → tr k ≠ name.
Proof.
  rewrite merge_lookup, rightmost_value_None. split.
  - intros H j q Hj. by apply snapshot_value_None, (H j q).
  - intros H j q Hj. by apply snapshot_value_None, (H j q).
Qed.

(** The merge depends on the latest snapshot of every prefix only: the
    order in which two prefixes were updated does not matter, and an older
    snapshot of a prefix is forgotten. *)
Lemma merge_arrival_order (tr : string → string) (prefixes : list StoreKeyPrefix)
    (st : gmap string Merger.KVSnapshot) (p q : StoreKeyPrefix)
    (s s' : Merger.KVSnapshot) :
  PrefixPath p ≠ PrefixPath q →
  Merger.merge tr prefixes (Merger.update p s (Merger.update q s' st)) =
  Merger.merge tr prefixes (Merger.update q s' (Merger.update p s st)).
Proof. intros Hne. unfold Merger.update. by rewrite insert_insert_ne. Qed.

Lemma merge_latest_snapshot (tr : string → string) (prefixes : list StoreKeyPrefix)
    (st : gmap string Merger.KVSnapshot) (p : StoreKeyPrefix)
    (old new : Merger.KVSnapshot) :
  Merger.merge tr prefixes (Merger.update p new (Merger.update p old st)) =
  Merger.merge tr prefixes (Merger.update p new st).
Proof. unfold Merger.update. by rewrite insert_insert_eq. Qed.

Example transform_my_key :
  Merger.transform "my-key" true false = "my_key"
  ∧ Merger.transform "my-key" true true = "MY_KEY".
Proof. done. Qed.


(** ** The shape of the event loop *)
Section LoopShape.
Implicit Types (evs rest more : list event) (sigs : list Signal)
  (tr : list effect) (ev : event).

(** What the loop does on the event that ends it. *)
Lemma eventLoop_terminal ev rest :
  terminal ev = true →
  eventLoop (ev :: rest) = eventLoop [ev] ∧
  match ev with
  | EvErr err =>
      eventLoop [ev] = ([LogPrintf ("[ERR] " ++ err)], Exit ExitCodeRunnerError)
  | EvDone | EvStopCh => eventLoop [ev] = ([], Exit ExitCodeOK)
  | EvExit code =>
      eventLoop [ev] =
        ((LogPrintf msg_subprocess_exited :: RunnerStop ::
          (if bool_decide (code = 0) then []
           else [LogPrintf ("[ERR] " ++ msg_unexpected code)]))%list, Exit code)
  | EvSignal s =>
      eventLoop [ev] =
        ([RunnerSignal s; ErrStream msg_interrupt; RunnerStop], Exit ExitCodeInterrupt)
  end.
Proof.
  destruct ev as [err| |code|s|]; intros Ht; simpl in Ht.
  - done.
  - done.
  - by rewrite !eventLoop_exit.
  - by rewrite !(eventLoop_signal_interrupt s _ Ht).
  - done.
Qed.

(** The loop forwards the signals that do not interrupt, one by one, and
    then either waits or handles the first event that ends it. *)
Lemma eventLoop_split evs :
  (∃ sigs, evs = map EvSignal sigs
     ∧ Forall (λ s, is_interrupt s = false) sigs
     ∧ eventLoop evs = (map RunnerSignal sigs, Waiting))
  ∨ (∃ sigs ev rest, evs = (map EvSignal sigs ++ ev :: rest)%list
     ∧ Forall (λ s, is_interrupt s = false) sigs
     ∧ terminal ev = true
     ∧ eventLoop evs =
         ((map RunnerSignal sigs ++ (eventLoop [ev]).1)%list, (eventLoop [ev]).2)).
Proof.
  induction evs as [|ev evs IH].
  - left. by exists [].
  - destruct (terminal ev) eqn:Ht.
    + right. exists [], ev, evs. repeat split; [done..|].
      destruct (eventLoop_terminal ev evs Ht) as [-> _]. by destruct (eventLoop [ev]).
    + destruct ev as [err| |code|s|]; try done. simpl in Ht.
      rewrite (eventLoop_signal_other s evs Ht).
      destruct IH as [(sigs & -> & Hs & ->)|(sigs & ev & rest & -> & Hs & Hev & ->)].
      * left. exists (s :: sigs). repeat split; try done. by constructor.
      * right. exists (s :: sigs), ev, rest. repeat split; try done. by constructor.
Qed.

End LoopShape.

(** ** The shape of a whole invocation *)
Section RunShape.
Context (X : Externals).
Implicit Types (args : list string) (evs rest more : list event)
  (tr pre : list effect) (config : Config).

(** An invocation that did not reach the loop never looks at its events. *)
Lemma Run_startup_final args evs :
  (Run X args []).2 ≠ Waiting → Run X args evs = Run X args [].
Proof.
  unfold Run. destruct args as [|a0 args]; [done|].
  destruct (parseFlags X args) as [err|[[[config pargs] once] version]]; [done|].
  unfold runParsed, startRunner.
  destruct (logging_Setup X (loggingConfig X config)); [done|].
  destruct version; [done|].
  case_bool_decide.
  - by destruct (NewRunner X config pargs once).
  - case_bool_decide; [done|].
    destruct (pargs !! 0%nat) as [raw|]; [|done].
    destruct (ParseStoreKeyPrefix X raw) as [err|prefix]; [done|].
    by destruct (NewRunner X _ (drop 1 pargs) once).
Qed.

(** An invocation that reached the loop is its start-up followed by the
    loop. *)
Lemma Run_loop args evs :
  (Run X args []).2 = Waiting →
  Run X args evs = (((Run X args []).1 ++ (eventLoop evs).1)%list, (eventLoop evs).2).
Proof.
  intros H. apply (Run_app X args [] (Run X args []).1 evs).
  by destruct (Run X args []) as [tr o]; simpl in *; subst.
Qed.

(** Start-up either returns a status, having made no call on a runner, or
    creates and starts a runner, registers for signals and enters the
    loop. *)
Lemma startup_shape a0 args :
  (∃ pre s, Run X (a0 :: args) [] = (pre, Exit s)
     ∧ Forall (λ e, on_runner e = false ∧ new_runner_has_prefix e) pre
     ∧ s ∈ [ExitCodeOK; ExitCodeError; ExitCodeLoggingError;
            ExitCodeParseFlagsError; ExitCodeRunnerError]
     ∧ (s = ExitCodeOK → Forall (λ e, is_err_log e = false) pre)
     ∧ (s ≠ ExitCodeOK → ∃ err, last pre = Some (LogPrintf ("[ERR] " ++ err))))
  ∨ (∃ pre config command once,
       Run X (a0 :: args) [] =
         ((pre ++ [CallNewRunner config command once; GoRunnerStart; SignalNotify])%list,
          Waiting)
     ∧ Forall (λ e, on_runner e = false ∧ new_runner_has_prefix e
                    ∧ is_err_log e = false) pre
     ∧ Prefixes config ≠ []).
Proof.
  unfold Run.
  destruct (parseFlags X args) as [err|[[[config pargs] once] version]].
  { left. eexists _, _. split; [reflexivity|].
    split; [by repeat constructor|]. split; [set_solver|].
    split; [done|]. intros _. by exists err. }
  unfold runParsed, startRunner.
  destruct (logging_Setup X (loggingConfig X config)) as [err|].
  { left. eexists _, _. split; [reflexivity|].
    split; [by repeat constructor|]. split; [set_solver|].
    split; [done|]. intros _. by exists err. }
  destruct version.
  { left. eexists _, _. split; [reflexivity|].
    split; [by repeat constructor|]. split; [set_solver|].
    split; [|done]. intros _. by repeat constructor. }
  case_bool_decide as Hpre.
  - assert (Hne : Prefixes config ≠ []) by (destruct (Prefixes config); [simpl in Hpre; lia|done]).
    destruct (NewRunner X config pargs once) as [err|].
    + left. eexists _, _. split; [reflexivity|].
      split; [by repeat constructor|]. split; [set_solver|].
      split; [done|]. intros _. by exists err.
    + right. exists [CallLoggingSetup (loggingConfig X config)], config, pargs, once.
      split; [reflexivity|]. split; [by repeat constructor|done].
  - case_bool_decide.
    { left. eexists _, _. split; [reflexivity|].
      split; [by repeat constructor|]. split; [set_solver|].
      split; [done|]. intros _. by eexists. }
    destruct (pargs !! 0%nat) as [raw|] eqn:Hraw;
      [|apply lookup_ge_None in Hraw; lia].
    destruct (ParseStoreKeyPrefix X raw) as [err|prefix].
    { left. eexists _, _. split; [reflexivity|].
      split; [by repeat constructor|]. split; [set_solver|].
      split; [done|]. intros _. by exists err. }
    assert (Hne : Prefixes (with_Prefixes config (Prefixes config ++ [prefix])) ≠ []).
    { simpl. by destruct (Prefixes config). }
    destruct (NewRunner X _ (drop 1 pargs) once) as [err|].
    + left. eexists _, _. split; [reflexivity|].
      split; [by repeat constructor|]. split; [set_solver|].
      split; [done|]. intros _. by exists err.
    + right. eexists [_; _; _], _, _, _.
      split; [reflexivity|]. split; [by repeat constructor|done].
Qed.

End RunShape.

Section RunCases.
Context (X : Externals).
Implicit Types (args : list string) (evs rest more : list event)
  (sigs : list Signal) (tr pre : list effect) (config : Config).

Lemma eventLoop_final evs tr o more :
  eventLoop evs = (tr, o) → o ≠ Waiting → eventLoop (evs ++ more) = (tr, o).
Proof.
  revert tr. induction evs as [|ev evs IH]; intros tr.
  - by intros [= <- <-].
  - destruct ev as [err| |code|s|]; try done.
    cbn [app]. destruct (is_interrupt s) eqn:Hs.
    + by rewrite !(eventLoop_signal_interrupt s _ Hs).
    + rewrite !(eventLoop_signal_other s _ Hs).
      destruct (eventLoop evs) as [tr' o'] eqn:E.
      intros [= <- <-] Ho. by rewrite (IH tr' eq_refl Ho).
Qed.

Lemma eventLoop_signals sigs rest :
  Forall (λ s, is_interrupt s = false) sigs →
  eventLoop (map EvSignal sigs ++ rest) =
    ((map RunnerSignal sigs ++ (eventLoop rest).1)%list, (eventLoop rest).2).
Proof.
  induction 1 as [|s sigs Hs _ IH]; [simpl; by destruct (eventLoop rest)|].
  cbn [map app]. by rewrite (eventLoop_signal_other s _ Hs), IH.
Qed.

(** Every invocation with a program name is of one of three kinds: it
    ends during start-up; it is in the loop, having forwarded signals
    only; or it ended in the loop on the first terminal event. *)
Lemma Run_shape a0 args evs :
  (∃ pre s, Run X (a0 :: args) evs = (pre, Exit s)
     ∧ Forall (λ e, on_runner e = false ∧ new_runner_has_prefix e) pre
     ∧ s ∈ [ExitCodeOK; ExitCodeError; ExitCodeLoggingError;
            ExitCodeParseFlagsError; ExitCodeRunnerError]
     ∧ (s = ExitCodeOK → Forall (λ e, is_err_log e = false) pre)
     ∧ (s ≠ ExitCodeOK → ∃ err, last pre = Some (LogPrintf ("[ERR] " ++ err))))
  ∨ (∃ pre config command once sigs,
       Forall (λ e, on_runner e = false ∧ new_runner_has_prefix e
                    ∧ is_err_log e = false) pre
     ∧ Prefixes config ≠ []
     ∧ Forall (λ s, is_interrupt s = false) sigs
     ∧ (Run X (a0 :: args) [] =
          ((pre ++ [CallNewRunner config command once; GoRunnerStart; SignalNotify])%list,
           Waiting))
     ∧ ((evs = map EvSignal sigs
         ∧ Run X (a0 :: args) evs =
             ((pre ++ CallNewRunner config command once :: GoRunnerStart ::
               SignalNotify :: map RunnerSignal sigs)%list, Waiting))
        ∨ (∃ ev rest, evs = (map EvSignal sigs ++ ev :: rest)%list
           ∧ terminal ev = true
           ∧ Run X (a0 :: args) evs =
               ((pre ++ CallNewRunner config command once :: GoRunnerStart ::
                 SignalNotify :: map RunnerSignal sigs ++ (eventLoop [ev]).1)%list,
                (eventLoop [ev]).2)))).
Proof.
  destruct (startup_shape X a0 args)
    as [(pre & s & Hrun & Hpre)|(pre & config & command & once & Hrun & Hpre & Hne)].
  - left. exists pre, s. split; [|done].
    rewrite Run_startup_final; [done|]. by rewrite Hrun.
  - right. exists pre, config, command, once.
    assert (Hw : (Run X (a0 :: args) []).2 = Waiting) by by rewrite Hrun.
    rewrite (Run_loop X _ evs Hw), Hrun. cbn [fst].
    destruct (eventLoop_split evs)
      as [(sigs & -> & Hs & ->)|(sigs & ev & rest & -> & Hs & Hev & ->)];
      exists sigs; repeat split; try done.
    + left. split; [done|]. by rewrite <-app_assoc.
    + right. exists ev, rest. repeat split; try done. by rewrite <-app_assoc.
Qed.

End RunCases.

(** ** Further properties of the exit codes *)

(** X1: the nine exit-code constants are pairwise distinct, and the eight
    error constants are consecutive from [ExitCodeError] on, all above
    [ExitCodeOK]: a status names one cause among the constants. *)
Theorem exit_codes_distinct :
  NoDup (ExitCodeOK :: internal_codes)
  ∧ (∀ (i : nat) c, internal_codes !! i = Some c → c = ExitCodeError + Z.of_nat i)
  ∧ ExitCodeOK < ExitCodeError.
Proof.
  split; [|split; [|done]].
  - apply (bool_decide_unpack _). by vm_compute.
  - intros i c. do 8 (destruct i as [|i]; [by intros [= <-]|]). done.
Qed.

(** ** Further properties of [Run] *)

Lemma eventLoop_terminal_status ev s :
  terminal ev = true → (eventLoop [ev]).2 = Exit s →
  s ∈ [ExitCodeOK; ExitCodeRunnerError; ExitCodeInterrupt] ∨ ev = EvExit s.
Proof.
  intros Ht. destruct (eventLoop_terminal ev [] Ht) as [_ H].
  destruct ev as [err| |code|sg|]; rewrite H; intros [= <-];
    (by right) || (left; set_solver).
Qed.

Lemma eventLoop_terminal_exit ev :
  terminal ev = true → ∃ s, (eventLoop [ev]).2 = Exit s.
Proof.
  intros Ht. destruct (eventLoop_terminal ev [] Ht) as [_ H].
  destruct ev as [err| |code|sg|]; rewrite H; by eexists.
Qed.

Lemma eventLoop_waiting_iff evs :
  (eventLoop evs).2 = Waiting ↔ Forall (λ ev, terminal ev = false) evs.
Proof.
  induction evs as [|ev evs IH]; [done|].
  rewrite Forall_cons. destruct (terminal ev) eqn:Ht.
  - destruct (eventLoop_terminal ev evs Ht) as [-> _].
    destruct (eventLoop_terminal_exit ev Ht) as [s ->]. split; [done|]. by intros [? _].
  - destruct ev as [err| |code|sg|]; try done. simpl in Ht.
    rewrite (eventLoop_signal_other sg evs Ht). cbn [snd]. rewrite IH. tauto.
Qed.

(** X2: [Run] panics exactly when it is given no argument at all (not even
    the program name); in particular the index [parsedArgs[0]] of the
    deprecated path is always in range. *)
Theorem Run_panics_iff_no_args X args evs :
  (Run X args evs).2 = Panic ↔ args = [].
Proof.
  destruct args as [|a0 args]; [done|]. split; [|done].
  destruct (Run_shape X a0 args evs)
    as [(pre & s & -> & _)
       |(pre & config & command & once & sigs & _ & _ & _ & _ &
         [[_ ->]|(ev & rest & _ & Ht & ->)])]; try done.
  cbn [snd]. by destruct (eventLoop_terminal_exit ev Ht) as [s ->].
Qed.

(** X3: a status that [Run] returns is one of the constants [ExitCodeOK],
    [ExitCodeError], [ExitCodeInterrupt], [ExitCodeLoggingError],
    [ExitCodeParseFlagsError], [ExitCodeRunnerError], or the exit code of
    the child.  So [ExitCodeParseConfigError], [ExitCodeConsulAPIError] and
    [ExitCodeWatcherError] only ever come from a child that exits with
    their value. *)
Theorem Run_status_origin X args evs s :
  (Run X args evs).2 = Exit s →
  (s ∈ returned_constants ∨ EvExit s ∈ evs)
  ∧ (s ∈ [ExitCodeParseConfigError; ExitCodeConsulAPIError; ExitCodeWatcherError] →
     EvExit s ∈ evs).
Proof.
  intros Hs.
  assert (H : s ∈ returned_constants ∨ EvExit s ∈ evs).
  { destruct args as [|a0 args]; [done|].
    destruct (Run_shape X a0 args evs)
      as [(pre & s' & Hrun & _ & Hin & _)
         |(pre & config & command & once & sigs & _ & _ & _ & _ &
           [[_ Hrun]|(ev & rest & -> & Ht & Hrun)])];
      rewrite Hrun in Hs; cbn [snd] in Hs.
    - injection Hs as ->. left. revert Hin. unfold returned_constants.
      rewrite !elem_of_cons, !elem_of_nil. tauto.
    - done.
    - destruct (eventLoop_terminal_status ev s Ht Hs) as [Hin| ->].
      + left. revert Hin. unfold returned_constants.
        rewrite !elem_of_cons, !elem_of_nil. tauto.
      + right. apply elem_of_app. right. apply elem_of_cons. by left. }
  split; [done|]. intros Hin. destruct H as [H|H]; [|done].
  exfalso. revert H Hin. unfold returned_constants.
  rewrite !elem_of_cons, !elem_of_nil. vm_compute. intuition congruence.
Qed.

Lemma Run_status_origin_witness :
  let args := ["envconsul"; "-prefix"; "app"; "env"] in
  let evs := [EvSignal 1; EvExit 18; EvDone] in
  (18 ∈ returned_constants ∨ EvExit 18 ∈ evs)
  ∧ (18 ∈ [ExitCodeParseConfigError; ExitCodeConsulAPIError; ExitCodeWatcherError] →
     EvExit 18 ∈ evs).
Proof.
  intros args evs. apply (Run_status_origin Sample.world args evs 18). reflexivity.
Defined.

(** X4: once [Run] has returned (or panicked), events that arrive later
    change neither its status nor what it did. *)
Theorem Run_returned_is_final X args evs tr o more :
  Run X args evs = (tr, o) → o ≠ Waiting → Run X args (evs ++ more) = (tr, o).
Proof.
  intros Hrun Ho.
  destruct (decide ((Run X args []).2 = Waiting)) as [Hw|Hw].
  - rewrite (Run_loop X args evs Hw) in Hrun. rewrite (Run_loop X args _ Hw).
    destruct (eventLoop evs) as [tr' o'] eqn:E. injection Hrun as <- <-.
    by rewrite (eventLoop_final evs tr' o' more E Ho).
  - by rewrite Run_startup_final, <-(Run_startup_final X args evs).
Qed.

Lemma Run_returned_is_final_witness :
  let args := ["envconsul"; "-prefix"; "app"; "env"] in
  Run Sample.world args ([EvSignal 1; EvDone] ++ [EvExit 3; EvSignal 2]) =
    ((Run Sample.world args [EvSignal 1; EvDone]).1, Exit 0).
Proof.
  intros args.
  apply (Run_returned_is_final Sample.world args [EvSignal 1; EvDone]);
    [reflexivity|discriminate].
Defined.

(** X5: signals other than SIGINT, SIGTERM and SIGQUIT that arrive while
    [Run] waits are each forwarded to the runner once, in their order of
    arrival, with nothing else done in between; the loop then goes on with
    the events that follow. *)
Theorem Run_forwards_signals_in_order X args evs tr sigs rest :
  Run X args evs = (tr, Waiting) →
  Forall (λ s, s ≠ SIGINT ∧ s ≠ SIGTERM ∧ s ≠ SIGQUIT) sigs →
  Run X args (evs ++ map EvSignal sigs ++ rest) =
    ((tr ++ map RunnerSignal sigs ++ (eventLoop rest).1)%list, (eventLoop rest).2).
Proof.
  intros Hrun Hs. rewrite (Run_app X args evs tr _ Hrun), eventLoop_signals; [done|].
  eapply Forall_impl; [exact Hs|]. intros s (H1 & H2 & H3). simpl.
  apply not_true_is_false. rewrite is_interrupt_spec. tauto.
Qed.

Lemma Run_forwards_signals_in_order_witness :
  let args := ["envconsul"; "-prefix"; "app"; "env"] in
  Run Sample.world args ([] ++ map EvSignal [1; 10; 1] ++ [EvDone]) =
    (((Run Sample.world args []).1 ++ map RunnerSignal [1; 10; 1] ++ [])%list, Exit 0).
Proof.
  intros args.
  apply (Run_forwards_signals_in_order Sample.world args []
           (Run Sample.world args []).1 [1; 10; 1] [EvDone]); [reflexivity|].
  repeat constructor; discriminate.
Defined.

(** X6: [Run] is still waiting after a sequence of events exactly when
    start-up reached the loop and every event so far was a signal other
    than SIGINT, SIGTERM and SIGQUIT. *)
Theorem Run_waiting_iff X args evs :
  (Run X args evs).2 = Waiting ↔
  (Run X args []).2 = Waiting ∧ Forall (λ ev, terminal ev = false) evs.
Proof.
  destruct (decide ((Run X args []).2 = Waiting)) as [Hw|Hw].
  - rewrite (Run_loop X args evs Hw). cbn [snd]. rewrite eventLoop_waiting_iff. tauto.
  - rewrite (Run_startup_final X args evs Hw). tauto.
Qed.


(** ** The runner calls of an invocation *)

Lemma eventLoop_effects evs : Forall loop_effect (eventLoop evs).1.
Proof.
  induction evs as [|ev evs IH]; [by constructor|].
  destruct ev as [err| |code|s|]; simpl.
  - by repeat constructor.
  - by constructor.
  - case_bool_decide; by repeat constructor.
  - destruct (is_interrupt s); by repeat constructor.
  - by constructor.
Qed.

Lemma filter_stop_nil (l : list effect) :
  Forall (λ e, is_stop e = false) l → List.filter is_stop l = [].
Proof. induction 1 as [|e l He _ IH]; [done|]. simpl. by rewrite He. Qed.

Lemma filter_stop_signals (sigs : list Signal) :
  List.filter is_stop (map RunnerSignal sigs) = [].
Proof. by induction sigs. Qed.

(** The calls of [runner.Stop] of an invocation are those of the event
    that ended it, if any. *)
Lemma Run_stops X a0 args evs :
  List.filter is_stop (Run X (a0 :: args) evs).1 = [] ∧
    ((Run X (a0 :: args) evs).2 = Waiting
     ∨ ∃ s, (Run X (a0 :: args) evs).2 = Exit s)
  ∨ ∃ sigs ev rest, evs = (map EvSignal sigs ++ ev :: rest)%list
      ∧ Forall (λ s, is_interrupt s = false) sigs
      ∧ terminal ev = true
      ∧ (Run X (a0 :: args) []).2 = Waiting
      ∧ (Run X (a0 :: args) evs).2 = (eventLoop [ev]).2
      ∧ List.filter is_stop (Run X (a0 :: args) evs).1 =
          List.filter is_stop (eventLoop [ev]).1.
Proof.
  assert (Hpre : ∀ pre : list effect,
            Forall (λ e, on_runner e = false ∧ new_runner_has_prefix e) pre →
            List.filter is_stop pre = []).
  { intros pre H. apply filter_stop_nil. eapply Forall_impl; [exact H|].
    intros [] [? _]; done. }
  destruct (Run_shape X a0 args evs)
    as [(pre & s & -> & Hp & _)
       |(pre & config & command & once & sigs & Hp & _ & Hs & H0 &
         [[_ ->]|(ev & rest & -> & Ht & ->)])]; cbn [fst snd].
  - left. split; [by apply Hpre|]. right. by exists s.
  - left. split; [|by left]. rewrite List.filter_app. cbn [List.filter is_stop].
    rewrite filter_stop_signals, app_nil_r. apply Hpre.
    eapply Forall_impl; [exact Hp|]. by intros e (? & ? & _).
  - right. exists sigs, ev, rest. repeat split; try done; [by rewrite H0|].
    rewrite List.filter_app. cbn [List.filter is_stop].
    rewrite List.filter_app, filter_stop_signals. cbn [app].
    rewrite Hpre; [done|]. eapply Forall_impl; [exact Hp|]. by intros e (? & ? & _).
Qed.

(** X7: in every invocation [runner.Stop] is called at most once, and
    never while [Run] goes on waiting. *)
Theorem runner_stopped_at_most_once X args evs :
  (length (List.filter is_stop (Run X args evs).1) ≤ 1)%nat
  ∧ ((Run X args evs).2 = Waiting → List.filter is_stop (Run X args evs).1 = []).
Proof.
  destruct args as [|a0 args]; [split; [simpl; lia|done]|].
  destruct (Run_stops X a0 args evs)
    as [[-> _]|(sigs & ev & rest & _ & _ & Ht & _ & -> & ->)]; [split; [simpl; lia|done]|].
  destruct (eventLoop_terminal ev [] Ht) as [_ H].
  destruct ev as [err| |code|sg|]; rewrite H; try (split; [simpl; lia|done]).
  case_bool_decide; (split; [simpl; lia|done]).
Qed.

(** X8: of the events that end the loop, a child exit and an interrupting
    signal make [Run] stop the runner; a runner error, the done event and
    the CLI's own stop channel make it return without calling
    [runner.Stop]. *)
Theorem runner_stopped_on_exit_and_interrupt_only X args evs tr ev rest :
  Run X args evs = (tr, Waiting) →
  terminal ev = true →
  List.filter is_stop (Run X args (evs ++ ev :: rest)).1 =
    match ev with
    | EvExit _ | EvSignal _ => [RunnerStop]
    | EvErr _ | EvDone | EvStopCh => []
    end.
Proof.
  intros Hrun Ht.
  assert (Htr : List.filter is_stop tr = []).
  { destruct args as [|a0 args]; [done|].
    destruct (Run_stops X a0 args evs)
      as [[H _]|(sigs & ev' & rest' & _ & _ & Ht' & _ & Ho & _)].
    - by rewrite Hrun in H.
    - rewrite Hrun in Ho. destruct (eventLoop_terminal_exit ev' Ht') as [s Hs].
      cbn [snd] in Ho. congruence. }
  rewrite (Run_app X args evs tr _ Hrun). cbn [fst].
  rewrite List.filter_app, Htr. cbn [app].
  destruct (eventLoop_terminal ev rest Ht) as [-> H].
  destruct ev as [err| |code|sg|]; rewrite H; try done.
  simpl. by case_bool_decide.
Qed.

Lemma runner_stopped_on_exit_and_interrupt_only_witness :
  let args := ["envconsul"; "-prefix"; "app"; "env"] in
  List.filter is_stop
    (Run Sample.world args ([EvSignal 1] ++ EvErr "exec: not found" :: [])).1 = [].
Proof.
  intros args.
  apply (runner_stopped_on_exit_and_interrupt_only Sample.world args [EvSignal 1]
           (Run Sample.world args [EvSignal 1]).1 (EvErr "exec: not found") []);
    reflexivity.
Defined.

(** X9: a runner is only signalled or stopped after it was created and
    started: either the invocation makes no call on a runner at all, or
    its trace has exactly one [go runner.Start()], which follows
    [NewRunner] at once and comes before every other call on the runner. *)
Theorem runner_started_before_use X args evs :
  Forall (λ e, on_runner e = false) (Run X args evs).1
  ∨ ∃ before config command once after,
      (Run X args evs).1 =
        (before ++ CallNewRunner config command once :: GoRunnerStart :: after)%list
      ∧ Forall (λ e, on_runner e = false) before
      ∧ Forall (λ e, is_start e = false) after.
Proof.
  destruct args as [|a0 args]; [left; by constructor|].
  destruct (startup_shape X a0 args)
    as [(pre & s & Hrun & Hpre & _)|(pre & config & command & once & Hrun & Hpre & _)].
  - left. rewrite Run_startup_final by by rewrite Hrun. rewrite Hrun. cbn [fst].
    eapply Forall_impl; [exact Hpre|]. by intros e [? _].
  - right. exists pre, config, command, once, (SignalNotify :: (eventLoop evs).1).
    rewrite Run_loop by by rewrite Hrun. rewrite Hrun. cbn [fst].
    split; [by rewrite <-app_assoc|]. split.
    + eapply Forall_impl; [exact Hpre|]. by intros e (? & _).
    + constructor; [done|]. eapply Forall_impl; [apply eventLoop_effects|].
      by intros [].
Qed.

(** X10: whenever [Run] calls [NewRunner], the configuration it passes has
    at least one prefix (configured by flag or file, or taken from the
    first positional argument). *)
Theorem NewRunner_gets_a_prefix X args evs :
  Forall new_runner_has_prefix (Run X args evs).1.
Proof.
  destruct args as [|a0 args]; [by constructor|].
  destruct (startup_shape X a0 args)
    as [(pre & s & Hrun & Hpre & _)|(pre & config & command & once & Hrun & Hpre & Hne)].
  - rewrite Run_startup_final by by rewrite Hrun. rewrite Hrun. cbn [fst].
    eapply Forall_impl; [exact Hpre|]. by intros e [_ ?].
  - rewrite Run_loop by by rewrite Hrun. rewrite Hrun. cbn [fst].
    rewrite !Forall_app. split; [split|].
    + eapply Forall_impl; [exact Hpre|]. by intros e (_ & ? & _).
    + by repeat constructor.
    + eapply Forall_impl; [apply eventLoop_effects|]. by intros [].
Qed.

(** ** Status and error log *)

Lemma eventLoop_status_log evs tr s :
  eventLoop evs = (tr, Exit s) →
  (s = ExitCodeOK → Forall (λ e, is_err_log e = false) tr)
  ∧ (s ≠ ExitCodeOK →
     (∃ err, last tr = Some (LogPrintf ("[ERR] " ++ err)))
     ∨ (s = ExitCodeInterrupt ∧ last tr = Some RunnerStop
        ∧ ErrStream msg_interrupt ∈ tr)).
Proof.
  destruct (eventLoop_split evs)
    as [(sigs & -> & Hs & ->)|(sigs & ev & rest & -> & Hs & Ht & ->)]; [done|].
  assert (Hsig : Forall (λ e, is_err_log e = false) (map RunnerSignal sigs)).
  { clear. induction sigs; by constructor. }
  destruct (eventLoop_terminal ev [] Ht) as [_ H].
  destruct ev as [err| |code|sg|]; rewrite H; cbn [fst snd]; intros [= <- <-].
  - split; [done|]. intros _. left. exists err. by rewrite last_app.
  - split; [|done]. intros _. by rewrite app_nil_r.
  - case_bool_decide as Hc.
    + split; [|by subst]. intros _. rewrite Forall_app. split; [done|].
      by repeat constructor.
    + split; [done|]. intros _. left. eexists. by rewrite last_app.
  - split; [done|]. intros _. right. split; [done|]. split; [by rewrite last_app|].
    apply elem_of_app. right. apply elem_of_cons. right. apply elem_of_cons. by left.
  - split; [|done]. intros _. by rewrite app_nil_r.
Qed.

(** X11: a status of zero is never accompanied by an error line in the
    log; a nonzero status is always explained: either the last thing
    [Run] did was to log the error with the [ERR] tag, or the status is
    [ExitCodeInterrupt], the interrupt message was written to the error
    stream and the last thing [Run] did was to stop the runner. *)
Theorem Run_status_and_error_log X args evs tr s :
  Run X args evs = (tr, Exit s) →
  (s = ExitCodeOK → Forall (λ e, is_err_log e = false) tr)
  ∧ (s ≠ ExitCodeOK →
     (∃ err, last tr = Some (LogPrintf ("[ERR] " ++ err)))
     ∨ (s = ExitCodeInterrupt ∧ last tr = Some RunnerStop
        ∧ ErrStream msg_interrupt ∈ tr)).
Proof.
  destruct args as [|a0 args]; [done|].
  destruct (startup_shape X a0 args)
    as [(pre & s' & Hrun & _ & _ & Hok & Herr)
       |(pre & config & command & once & Hrun & Hpre & _)].
  - rewrite Run_startup_final by by rewrite Hrun. rewrite Hrun.
    intros [= <- <-]. split; [done|]. intros Hs. left. by apply Herr.
  - rewrite Run_loop by by rewrite Hrun. rewrite Hrun. cbn [fst].
    destruct (eventLoop evs) as [loop o] eqn:E. cbn [fst snd].
    intros [= <- ->]. destruct (eventLoop_status_log evs loop s E) as [Hok Herr].
    split.
    + intros Hs. rewrite !Forall_app. split; [split|by apply Hok].
      * eapply Forall_impl; [exact Hpre|]. by intros e (_ & _ & ?).
      * by repeat constructor.
    + intros Hs. destruct (Herr Hs) as [[err Hl]|(-> & Hl & Hin)].
      * left. exists err. by rewrite last_app, Hl.
      * right. split; [done|]. split; [by rewrite last_app, Hl|].
        apply elem_of_app. by right.
Qed.

Lemma Run_status_and_error_log_witness :
  let args := ["envconsul"; "-prefix"; "app"; "env"] in
  let tr := (Run Sample.world args [EvSignal 1; EvExit 7]).1 in
  (7 = ExitCodeOK → Forall (λ e, is_err_log e = false) tr)
  ∧ (7 ≠ ExitCodeOK →
     (∃ err, last tr = Some (LogPrintf ("[ERR] " ++ err)))
     ∨ (7 = ExitCodeInterrupt ∧ last tr = Some RunnerStop
        ∧ ErrStream msg_interrupt ∈ tr)).
Proof.
  intros args tr.
  apply (Run_status_and_error_log Sample.world args [EvSignal 1; EvExit 7] tr 7).
  reflexivity.
Defined.

(** ** [stop] from any consistent state *)

(** X12: [stop] keeps the CLI consistent (mutex free, channel closed
    exactly when the flag is set).  From a consistent state any number of
    calls return, none panics on a closed channel or blocks, the channel
    is closed at most once (not at all if the CLI was stopped already),
    and after at least one call the CLI is stopped. *)
Theorem stop_keeps_consistent (n : nat) (cli : CLI) :
  cli_consistent cli →
  ∃ cli', (stop_n n cli).2 = Returned cli'
    ∧ cli_consistent cli'
    ∧ closes (stop_n n cli).1 =
        (if stopped cli then 0 else match n with O => 0 | S _ => 1 end)%nat
    ∧ (stopped cli = true → cli' = cli)
    ∧ ((0 < n)%nat → stopped cli' = true).
Proof.
  intros Hcons. pose proof Hcons as [Hl Hiff]. destruct (stopped cli) eqn:Hs.
  - destruct (stop_n_stopped n cli Hl Hs) as [Hr Hc].
    exists cli. split; [done|]. split; [exact Hcons|]. split; [done|]. by split.
  - destruct n as [|n].
    + exists cli. split; [done|]. split; [exact Hcons|]. split; [done|].
      split; [done|lia].
    + assert (Hc : stopCh cli = ChanOpen).
      { destruct (stopCh cli); [done|]. destruct Hiff as [H _]. by specialize (H eq_refl). }
      destruct (stop_n_stopped n stoppedCLI eq_refl eq_refl) as [Hr Hn].
      assert (Hstep : stop_n (S n) cli =
                ((([OpLock; OpClose; OpUnlock] ++ (stop_n n stoppedCLI).1)%list),
                 (stop_n n stoppedCLI).2)).
      { simpl. unfold stop. by rewrite Hl, Hs, Hc. }
      rewrite Hstep. cbn [fst snd]. exists stoppedCLI.
      rewrite closes_app, Hn. split; [done|]. split; [by split|]. split; [done|].
      split; [by intros [=]|done].
Qed.

Lemma stop_keeps_consistent_witness :
  ∃ cli', (stop_n 2 NewCLI).2 = Returned cli'
    ∧ cli_consistent cli'
    ∧ closes (stop_n 2 NewCLI).1 = 1%nat
    ∧ (stopped NewCLI = true → cli' = NewCLI)
    ∧ ((0 < 2)%nat → stopped cli' = true).
Proof. apply (stop_keeps_consistent 2 NewCLI). by split. Defined.
